(** * delog.py: stripping cursor-position codes from a terminal log

    The script compiles one regular expression, then for every line of
    standard input prints [regex.sub('', line).strip()].  This file embeds
    the script together with the three pieces of the Python runtime it
    calls ([re] matching and substitution, [str.strip], line iteration over
    a text stream and [print]) and proves what the specification says about
    it.

    A Python 3 [str] is a sequence of Unicode code points: a character is
    a code point in [N] and a string a [list N].  The text stream is taken
    after decoding, so standard input and standard output are strings. *)

From Equations Require Import Equations.
From Stdlib Require Import String Ascii.
From stdpp Require Import numbers list.

Notation char := N (only parsing).
Notation str := (list N) (only parsing).

(** Code points of a Rocq string literal, to write examples legibly. *)
Definition py (s : string) : str := N_of_ascii <$> list_ascii_of_string s.

(** ** The characters the script and its pattern name *)
Section Characters.
Local Open Scope N_scope.

Definition LF : char := 10.          (* '\n' *)
Definition ESC : char := 27.         (* '\x1b' *)
Definition LBRACKET : char := 91.    (* '[' *)
Definition SEMICOLON : char := 59.   (* ';' *)
Definition LETTER_H : char := 72.    (* 'H' *)
Definition DIGIT_0 : char := 48.     (* '0' *)
Definition DIGIT_9 : char := 57.     (* '9' *)
End Characters.

(** ** str.strip *)
Module PyStr.
Section Whitespace.
Local Open Scope N_scope.

(** [c.isspace()] for one code point: CPython's [_PyUnicode_IsWhitespace],
    the characters of bidirectional type WS, B or S or of category Zs.
    The first six (tab to carriage return, and space) are also the whitespace
    of a Python 2 byte string. *)
Definition isspace (c : char) : bool :=
  ((9 <=? c) && (c <=? 13))            (* \t \n \v \f \r *)
  || ((28 <=? c) && (c <=? 32))        (* FS GS RS US, space *)
  || (c =? 133) || (c =? 160)          (* NEL, no-break space *)
  || (c =? 5760)                       (* U+1680 *)
  || ((8192 <=? c) && (c <=? 8202))    (* U+2000 .. U+200A *)
  || (c =? 8232) || (c =? 8233)        (* U+2028, U+2029 *)
  || (c =? 8239) || (c =? 8287)        (* U+202F, U+205F *)
  || (c =? 12288).                     (* U+3000 *)
End Whitespace.

(** [s.lstrip()]: advance past the leading whitespace. *)
Fixpoint lstrip (s : str) : str :=
  match s with
  | [] => []
  | c :: s' => if isspace c then lstrip s' else s
  end.

(** [s.rstrip()]: step back over the trailing whitespace. *)
Fixpoint rstrip (s : str) : str :=
  match s with
  | [] => []
  | c :: s' =>
      match rstrip s' with
      | [] => if isspace c then [] else [c]
      | r => c :: r
      end
  end.

(** [s.strip()]: the left index is found first, the right index then stops
    at it ([do_strip] in unicodeobject.c). *)
Definition strip (s : str) : str := rstrip (lstrip s).
End PyStr.

(** ** re: the compiled pattern, matching and substitution *)
Module PyRe.
(** The two node kinds [sre_parse] produces for the script's pattern: a
    literal character, and a greedy unbounded repeat of a character range
    ([MAX_REPEAT 0 MAXREPEAT [IN [RANGE lo hi]]]). *)
Inductive node : Type :=
| LITERAL (c : char)
| MAX_REPEAT_RANGE (lo hi : char).

Definition in_range (lo hi c : char) : bool := ((lo <=? c) && (c <=? hi))%N.

(** Match the node sequence [p] at the start of [s]: the number of
    characters of the match, or [None].  A repeat takes as many characters
    as it can and gives them back one at a time when the rest of the
    pattern fails, as the backtracking engine does. *)
Fixpoint sre_match (p : list node) (s : str) : option nat :=
  match p with
  | [] => Some 0
  | LITERAL c :: p' =>
      match s with
      | x :: s' => if (x =? c)%N then S <$> sre_match p' s' else None
      | [] => None
      end
  | MAX_REPEAT_RANGE lo hi :: p' =>
      (fix rep (s : str) : option nat :=
         match s with
         | x :: s' =>
             if in_range lo hi x then
               match rep s' with
               | Some n => Some (S n)
               | None => sre_match p' s
               end
             else sre_match p' s
         | [] => sre_match p' []
         end) s
  end.

(** [pattern.sub(repl, s)]: scan from the left; where the pattern matches,
    write [repl] and continue after the match, elsewhere copy the
    character.  An empty match writes [repl] and copies the character. *)
Equations? sub (p : list node) (repl : str) (s : str) : str
  by wf (length s) lt :=
  sub p repl [] with sre_match p [] := {
    | Some _ := repl;
    | None := [] };
  sub p repl (c :: s') with sre_match p (c :: s') := {
    | Some (S n) := repl ++ sub p repl (drop n s');
    | Some 0 := repl ++ c :: sub p repl s';
    | None := c :: sub p repl s' }.
Proof. all: simpl; try rewrite length_drop; lia. Qed.
End PyRe.

(** ** Text streams: line iteration and print *)
Module PyIO.
(** [for line in f]: the lines of the text, each with its ending ['\n'];
    only the last may lack one. *)
Fixpoint readlines (text : str) : list str :=
  match text with
  | [] => []
  | c :: text' =>
      if (c =? LF)%N then [c] :: readlines text'
      else match readlines text' with
           | [] => [[c]]
           | line :: lines => (c :: line) :: lines
           end
  end.

(** [print(s)] on a stream holding [out]: the string, then a newline. *)
Definition print (out : str) (s : str) : str := out ++ s ++ [LF].
End PyIO.

(** ** The script *)
Import PyStr PyRe PyIO.

(** [regex = re.compile('\x1b\[[0-9]*;[0-9]*H')] *)
Definition regex : list node :=
  [ LITERAL ESC; LITERAL LBRACKET;
    MAX_REPEAT_RANGE DIGIT_0 DIGIT_9; LITERAL SEMICOLON;
    MAX_REPEAT_RANGE DIGIT_0 DIGIT_9; LITERAL LETTER_H ].

(** The argument of [print] for one line: [regex.sub('', line).strip()]. *)
Definition delog_line (line : str) : str := strip (sub regex [] line).

(** The loop [for line in sys.stdin: print(...)], with the text written to
    standard output so far as state. *)
Fixpoint main_loop (lines : list str) (stdout : str) : str :=
  match lines with
  | [] => stdout
  | line :: lines' => main_loop lines' (print stdout (delog_line line))
  end.

(** What a run leaves behind: the text on standard output and the exit
    status. *)
Record outcome : Type := Outcome { stdout : str; exit_status : Z }.

(** The script run on the text of standard input.  The loop ends with the
    stream and the interpreter leaves with status 0; faults of the streams
    themselves are outside this model. *)
Definition main (stdin : str) : outcome :=
  {| stdout := main_loop (readlines stdin) []; exit_status := 0 |}.

(** ** The specification's vocabulary *)

(** A decimal digit, as a character of ["0123456789"]. *)
Definition decimal_digit (c : char) : Prop := c ∈ py "0123456789".

(** A cursor-position code: the escape character, ['['], zero or more
    decimal digits, [';'], zero or more decimal digits, ['H']. *)
Definition escape_code (m : str) : Prop :=
  ∃ row col : str,
    Forall decimal_digit row ∧ Forall decimal_digit col ∧
    m = [ESC; LBRACKET] ++ row ++ [SEMICOLON] ++ col ++ [LETTER_H].

(** The line holds no occurrence of the pattern at any position. *)
Definition no_occurrence (line : str) : Prop :=
  ∀ pre m post : str, line = pre ++ m ++ post → ¬ escape_code m.

(** A line cut into the characters that are copied and the occurrences
    that are dropped. *)
Inductive segment : Type :=
| Kept (c : char)
| Removed (m : str).

Definition seg_text (g : segment) : str :=
  match g with Kept c => [c] | Removed m => m end.

Definition seg_kept (g : segment) : str :=
  match g with Kept c => [c] | Removed _ => [] end.

Definition seg_ok (g : segment) : Prop :=
  match g with Kept _ => True | Removed m => escape_code m end.

(** The text the segments were cut from, and what is left of it. *)
Definition whole (segs : list segment) : str := concat (seg_text <$> segs).
Definition kept (segs : list segment) : str := concat (seg_kept <$> segs).

(** What [sub] does to a line, as a cut of the line into copied characters
    and dropped codes that misses no code. *)
Definition scanned (line : str) (segs : list segment) : Prop :=
  whole segs = line ∧ Forall seg_ok segs ∧ kept segs = sub regex [] line ∧
  ∀ pre m post, line = pre ++ m ++ post → escape_code m →
    ∃ before after, segs = before ++ Removed m :: after ∧ whole before = pre.

(** A line as the stream yields it: no newline inside, one at the end unless
    the text stopped short, and never empty. *)
Definition is_line (line : str) : Prop :=
  ∃ body : str, (LF ∉ body) ∧ (line = body ++ [LF] ∨ (line = body ∧ body ≠ [])).

(** The four characters the specification lists as whitespace. *)
Definition listed_whitespace (c : char) : Prop :=
  c ∈ [32; 9; 10; 13]%N.   (* space, tab, newline, carriage return *)

(** [out] is [s] without its leading and trailing characters of the set
    [ws], and without anything else: what was cut off lies in [ws] and the
    ends of [out] do not. *)
Definition trims_exactly (ws : char → Prop) (s out : str) : Prop :=
  ∃ pre post : str,
    s = pre ++ out ++ post ∧ Forall ws pre ∧ Forall ws post ∧
    (∀ c, head out = Some c → ¬ ws c) ∧ (∀ c, last out = Some c → ¬ ws c).

(** The lines of the specification's scenarios. *)
Definition hello_line : str :=
  [ESC] ++ py "[12;5HHello World" ++ [ESC] ++ py "[0;0H  ".
(** An occurrence inside the pieces of another: ESC [ ESC [ 1 ; 1 H ; H *)
Definition nested_line : str :=
  [ESC] ++ py "[" ++ [ESC] ++ py "[1;1H" ++ py ";H".
(** A form feed before a letter. *)
Definition formfeed_line : str := [12; 97]%N.

(** The cleaned form of a line, in the specification's words: the line is
    cut into copied characters and dropped codes, no code of the line is
    missed, and [out] is what was copied without its leading and trailing
    whitespace. *)
Definition cleaned (line out : str) : Prop :=
  ∃ segs : list segment,
    whole segs = line ∧ Forall seg_ok segs ∧
    (∀ pre m post, line = pre ++ m ++ post → escape_code m →
       ∃ before after, segs = before ++ Removed m :: after ∧ whole before = pre) ∧
    trims_exactly (λ c, isspace c = true) (kept segs) out.

(** The lines of a text: in their order they make up the text, none is
    empty, none holds a newline before its end, and every line but the last
    ends with a newline. *)
Definition lines_of (text : str) (lines : list str) : Prop :=
  concat lines = text ∧ Forall is_line lines ∧
  ∀ i line, lines !! i = Some line → S i < length lines → last line = Some LF.

(** ** Positions where a line can be cut *)

(** The characters a code holds after its escape character: ['['], a decimal
    digit, [';'] or ['H']. *)
Definition continues_code (c : char) : bool :=
  (c =? LBRACKET)%N || in_range DIGIT_0 DIGIT_9 c
  || (c =? SEMICOLON)%N || (c =? LETTER_H)%N.

(** No code that starts earlier can run into [b]: [b] is empty or starts
    with a character that continues no code. *)
Definition safe_cut (b : str) : Prop :=
  ∀ c, head b = Some c → continues_code c = false.

(** Where one text can be followed by another without joining two lines:
    at its start or after a newline. *)
Definition ends_lines (text : str) : Prop := text = [] ∨ last text = Some LF.

(** * Trimming *)

Lemma lstrip_split (s : str) :
  ∃ pre, s = pre ++ lstrip s ∧ Forall (λ c, isspace c = true) pre.
Proof.
  induction s as [|c s IH]; simpl.
  - by exists [].
  - destruct (isspace c) eqn:Hc.
    + destruct IH as (pre & Hs & Hpre). exists (c :: pre). split.
      * simpl. by f_equal.
      * by constructor.
    + by exists [].
Qed.

Lemma lstrip_head (s : str) (c : char) :
  head (lstrip s) = Some c → isspace c = false.
Proof.
  induction s as [|x s IH]; simpl; [done|].
  destruct (isspace x) eqn:Hx; [done|].
  simpl. by intros [= <-].
Qed.

Lemma lstrip_id (s : str) :
  (∀ c, head s = Some c → isspace c = false) → lstrip s = s.
Proof.
  destruct s as [|x s]; simpl; [done|].
  intros H. by rewrite (H x eq_refl).
Qed.

Lemma rstrip_split (s : str) :
  ∃ post, s = rstrip s ++ post ∧ Forall (λ c, isspace c = true) post.
Proof.
  induction s as [|c s (post & Hs & Hpost)]; simpl.
  - by exists [].
  - destruct (rstrip s) as [|y r] eqn:Hr.
    + simpl in Hs. subst post. destruct (isspace c) eqn:Hc.
      * exists (c :: s). split; [done|by constructor].
      * by exists s.
    + exists post. split; [|done]. simpl. by f_equal.
Qed.

Lemma rstrip_last (s : str) (c : char) :
  last (rstrip s) = Some c → isspace c = false.
Proof.
  induction s as [|x s IH]; simpl; [done|].
  destruct (rstrip s) as [|y r] eqn:Hr.
  - destruct (isspace x) eqn:Hx; [done|]. simpl. by intros [= <-].
  - rewrite last_cons_cons. exact IH.
Qed.

Lemma rstrip_id (s : str) :
  (∀ c, last s = Some c → isspace c = false) → rstrip s = s.
Proof.
  induction s as [|x s IH]; simpl; [done|].
  intros H. destruct s as [|y s].
  - simpl. by rewrite (H x eq_refl).
  - rewrite last_cons_cons in H. rewrite (IH H). done.
Qed.

Lemma rstrip_head (s : str) (c : char) :
  head (rstrip s) = Some c → head s = Some c.
Proof.
  destruct (rstrip_split s) as (post & Hs & _).
  intros H. rewrite Hs. destruct (rstrip s); [done|]. exact H.
Qed.

Lemma rstrip_snoc_space (s : str) (c : char) :
  isspace c = true → rstrip (s ++ [c]) = rstrip s.
Proof.
  intros Hc. induction s as [|x s IH]; simpl.
  - by rewrite Hc.
  - by rewrite IH.
Qed.

Lemma strip_head (s : str) (c : char) :
  head (strip s) = Some c → isspace c = false.
Proof. intros H. by apply (lstrip_head s), rstrip_head. Qed.

Lemma strip_last (s : str) (c : char) :
  last (strip s) = Some c → isspace c = false.
Proof. apply rstrip_last. Qed.

Lemma strip_fixed (s : str) :
  (∀ c, head s = Some c → isspace c = false) →
  (∀ c, last s = Some c → isspace c = false) → strip s = s.
Proof. intros Hh Hl. unfold strip. by rewrite (lstrip_id s Hh), (rstrip_id s Hl). Qed.

Lemma strip_strip (s : str) : strip (strip s) = strip s.
Proof. apply strip_fixed; [apply strip_head|apply strip_last]. Qed.

Lemma strip_split (s : str) :
  ∃ pre post,
    s = pre ++ strip s ++ post ∧
    Forall (λ c, isspace c = true) pre ∧ Forall (λ c, isspace c = true) post.
Proof.
  destruct (lstrip_split s) as (pre & Hs & Hpre).
  destruct (rstrip_split (lstrip s)) as (post & Hl & Hpost).
  exists pre, post. split; [|done].
  rewrite Hs at 1. by rewrite Hl at 1.
Qed.

Lemma strip_sublist (s : str) : strip s `sublist_of` s.
Proof.
  destruct (strip_split s) as (pre & post & Hs & _).
  rewrite Hs at 2. apply sublist_inserts_l, sublist_inserts_r. done.
Qed.

Lemma strip_snoc_space (s : str) (c : char) :
  isspace c = true → strip (s ++ [c]) = strip s.
Proof.
  intros Hc. unfold strip. induction s as [|x s IH]; simpl.
  - by rewrite Hc.
  - destruct (isspace x); [done|].
    change (x :: s ++ [c]) with ((x :: s) ++ [c]).
    by apply rstrip_snoc_space.
Qed.

(** * Matching *)

(** Equations between concatenations, up to bracketing. *)
Ltac list_eq := repeat (progress (simpl; rewrite <- ?app_assoc)); try done.

(** Lengths of concatenations. *)
Ltac list_len :=
  repeat (progress (cbn [length app] in *; rewrite ?length_app in * )); try lia.

Lemma decimal_digit_range (c : char) :
  decimal_digit c ↔ in_range DIGIT_0 DIGIT_9 c = true.
Proof.
  unfold decimal_digit, in_range, DIGIT_0, DIGIT_9.
  change (py "0123456789") with [48; 49; 50; 51; 52; 53; 54; 55; 56; 57]%N.
  rewrite !elem_of_cons, elem_of_nil, andb_true_iff, !N.leb_le. lia.
Qed.

Lemma sre_match_literal (c : char) (q : list node) (s : str) (n : nat) :
  sre_match (LITERAL c :: q) s = Some n ↔
  ∃ r k, s = c :: r ∧ sre_match q r = Some k ∧ n = S k.
Proof.
  destruct s as [|x s]; simpl.
  - split; [done|]. by intros (r & k & ? & _).
  - destruct (N.eqb_spec x c) as [->|Hne].
    + destruct (sre_match q s) as [k|] eqn:Hq; simpl.
      * split.
        -- intros [= <-]. by exists s, k.
        -- intros (r & k' & [= <-] & Hk & ->). rewrite Hq in Hk. by injection Hk as ->.
      * split; [done|]. intros (r & k' & [= <-] & Hk & _). by rewrite Hq in Hk.
    + split; [done|]. intros (r & k & [= ? _] & _). done.
Qed.

Lemma sre_match_repeat_cons (lo hi : char) (q : list node) (x : char) (s : str) :
  sre_match (MAX_REPEAT_RANGE lo hi :: q) (x :: s) =
  if in_range lo hi x then
    match sre_match (MAX_REPEAT_RANGE lo hi :: q) s with
    | Some n => Some (S n)
    | None => sre_match q (x :: s)
    end
  else sre_match q (x :: s).
Proof. reflexivity. Qed.

(** A repeat followed by a literal outside its range never has to give a
    character back: it takes the whole run and the literal comes next. *)
Lemma sre_match_repeat_literal (lo hi c : char) (q : list node) (s : str) (n : nat) :
  in_range lo hi c = false →
  sre_match (MAX_REPEAT_RANGE lo hi :: LITERAL c :: q) s = Some n ↔
  ∃ d r k,
    s = d ++ c :: r ∧ Forall (λ x, in_range lo hi x = true) d ∧
    sre_match q r = Some k ∧ n = length d + S k.
Proof.
  intros Hc. split.
  - revert n. induction s as [|x s IH]; intros n.
    + by change (sre_match _ []) with (@None nat).
    + rewrite sre_match_repeat_cons. destruct (in_range lo hi x) eqn:Hx.
      * destruct (sre_match (MAX_REPEAT_RANGE lo hi :: LITERAL c :: q) s) as [m|].
        -- intros [= <-]. destruct (IH m eq_refl) as (d & r & k & -> & Hd & Hk & ->).
           exists (x :: d), r, k. split_and!; [done|by constructor|done|done].
        -- intros (r & k & [= -> _] & _)%sre_match_literal. congruence.
      * intros (r & k & [= -> ->] & Hk & ->)%sre_match_literal.
        by exists [], r, k.
  - intros (d & r & k & -> & Hd & Hk & ->).
    induction Hd as [|x d Hx Hd IH]; simpl app.
    + rewrite sre_match_repeat_cons, Hc. apply sre_match_literal. by exists r, k.
    + rewrite sre_match_repeat_cons, Hx, IH. done.
Qed.

Lemma digit_range_false (c : char) :
  c = SEMICOLON ∨ c = LETTER_H → in_range DIGIT_0 DIGIT_9 c = false.
Proof. by intros [-> | ->]. Qed.

(** The pattern matches at the start of [s] exactly when [s] starts with a
    cursor-position code, and the match is that code. *)
Lemma sre_match_regex (s : str) (n : nat) :
  sre_match regex s = Some n ↔
  ∃ m rest, s = m ++ rest ∧ escape_code m ∧ n = length m.
Proof.
  unfold regex. split.
  - intros (r1 & k1 & -> & (r2 & k2 & -> & H & ->)%sre_match_literal & ->)%sre_match_literal.
    apply sre_match_repeat_literal in H as (row & r3 & k3 & -> & Hrow & H & ->);
      [|apply digit_range_false; by left].
    apply sre_match_repeat_literal in H as (col & r4 & k4 & -> & Hcol & H & ->);
      [|apply digit_range_false; by right].
    injection H as <-.
    exists ([ESC; LBRACKET] ++ row ++ [SEMICOLON] ++ col ++ [LETTER_H]), r4.
    split_and!.
    + list_eq.
    + exists row, col. split_and!; [| |done].
      * eapply Forall_impl; [exact Hrow|]. intros x. apply decimal_digit_range.
      * eapply Forall_impl; [exact Hcol|]. intros x. apply decimal_digit_range.
    + list_len.
  - intros (m & rest & -> & (row & col & Hrow & Hcol & ->) & ->).
    apply sre_match_literal.
    exists ([LBRACKET] ++ row ++ [SEMICOLON] ++ col ++ [LETTER_H] ++ rest),
      (S (length row + S (length col + 1))).
    split_and!; [list_eq| |list_len].
    apply sre_match_literal.
    exists (row ++ [SEMICOLON] ++ col ++ [LETTER_H] ++ rest),
      (length row + S (length col + 1)).
    split_and!; [list_eq| |done].
    apply sre_match_repeat_literal; [apply digit_range_false; by left|].
    exists row, (col ++ [LETTER_H] ++ rest), (length col + 1).
    split_and!; [list_eq| | |done].
    + eapply Forall_impl; [exact Hrow|]. intros x. apply decimal_digit_range.
    + apply sre_match_repeat_literal; [apply digit_range_false; by right|].
      exists col, rest, 0. split_and!; [list_eq| |done|lia].
      eapply Forall_impl; [exact Hcol|]. intros x. apply decimal_digit_range.
Qed.

(** * Substitution *)

Lemma sub_cons (p : list node) (repl : str) (c : char) (s : str) :
  sub p repl (c :: s) =
  match sre_match p (c :: s) with
  | Some (S n) => repl ++ sub p repl (drop n s)
  | Some 0 => repl ++ c :: sub p repl s
  | None => c :: sub p repl s
  end.
Proof.
  rewrite sub_equation_2.
  by destruct (sre_match p (c :: s)) as [[|n]|].
Qed.

Lemma sub_regex_nil : sub regex [] [] = [].
Proof. reflexivity. Qed.

Lemma decimal_digit_not_ESC (c : char) : decimal_digit c → c ≠ ESC.
Proof.
  intros Hc%decimal_digit_range ->. discriminate Hc.
Qed.

(** A code starts with the escape character and holds no other. *)
Lemma escape_code_shape (m : str) :
  escape_code m → ∃ t, m = ESC :: t ∧ ESC ∉ t.
Proof.
  intros (row & col & Hrow & Hcol & ->). eexists. split; [reflexivity|].
  rewrite Forall_forall in Hrow, Hcol. intros H.
  repeat (setoid_rewrite elem_of_cons in H || setoid_rewrite elem_of_app in H).
  rewrite elem_of_nil in H.
  destruct_or!; try discriminate; try done.
  - by apply (decimal_digit_not_ESC ESC (Hrow _ H)).
  - by apply (decimal_digit_not_ESC ESC (Hcol _ H)).
Qed.

Lemma escape_code_nonempty (m : str) : escape_code m → 0 < length m.
Proof. intros (t & -> & _)%escape_code_shape. simpl. lia. Qed.

(** At one position at most one code starts. *)
Lemma escape_code_unique (m1 m2 r1 r2 : str) :
  escape_code m1 → escape_code m2 → m1 ++ r1 = m2 ++ r2 → m1 = m2.
Proof.
  intros H1 H2 Heq.
  assert (sre_match regex (m1 ++ r1) = Some (length m1)) as E1
    by (apply sre_match_regex; eauto).
  assert (sre_match regex (m1 ++ r1) = Some (length m2)) as E2
    by (apply sre_match_regex; eauto).
  rewrite E1 in E2. injection E2 as Hlen.
  by apply app_inj_1 in Heq as [? _].
Qed.

Lemma whole_cons (g : segment) (segs : list segment) :
  whole (g :: segs) = seg_text g ++ whole segs.
Proof. reflexivity. Qed.

Lemma kept_cons (g : segment) (segs : list segment) :
  kept (g :: segs) = seg_kept g ++ kept segs.
Proof. reflexivity. Qed.

Lemma scanned_nil : scanned [] [].
Proof.
  split_and!; [done|constructor|done|].
  intros pre m post Heq Hm. apply escape_code_nonempty in Hm.
  symmetry in Heq. apply app_eq_nil in Heq as [_ [-> _]%app_eq_nil].
  simpl in Hm. lia.
Qed.

Lemma scanned_keep (c : char) (s : str) (segs : list segment) :
  sre_match regex (c :: s) = None → scanned s segs →
  scanned (c :: s) (Kept c :: segs).
Proof.
  intros Hno (Hw & Hok & Hk & Hall). split_and!.
  - by rewrite whole_cons, Hw.
  - by constructor.
  - by rewrite sub_cons, Hno, kept_cons, Hk.
  - intros [|x pre] m post Heq Hm.
    + simpl in Heq.
      assert (sre_match regex (c :: s) = Some (length m)) as E
        by (apply sre_match_regex; by exists m, post).
      congruence.
    + injection Heq as <- ->.
      destruct (Hall pre m post eq_refl Hm) as (before & after & -> & <-).
      by exists (Kept c :: before), after.
Qed.

Lemma scanned_remove (m0 rest : str) (segs : list segment) :
  escape_code m0 → scanned rest segs →
  scanned (m0 ++ rest) (Removed m0 :: segs).
Proof.
  intros Hm0 (Hw & Hok & Hk & Hall). split_and!.
  - by rewrite whole_cons, Hw.
  - by constructor.
  - destruct (escape_code_shape m0 Hm0) as (t & -> & _).
    assert (sre_match regex ((ESC :: t) ++ rest) = Some (S (length t))) as E
      by (apply sre_match_regex; eauto).
    simpl app in *. by rewrite sub_cons, E, drop_app_length, kept_cons, Hk.
  - intros pre m post Heq Hm.
    apply app_eq_inv in Heq as [(k & -> & Hrest)|(k & Hpre & Hrest)].
    + destruct pre as [|x pre].
      * simpl in *.
        assert (m = k) as -> by (eapply escape_code_unique; eauto).
        apply app_inv_head in Hrest as ->.
        by exists [], segs.
      * destruct k as [|y k].
        -- rewrite app_nil_r in *. simpl in Hrest.
           destruct (Hall [] m post (eq_sym Hrest) Hm) as (before & after & -> & Hb).
           exists (Removed (x :: pre) :: before), after. split; [done|].
           by rewrite whole_cons, Hb, app_nil_r.
        -- exfalso.
           destruct (escape_code_shape m Hm) as (t & -> & _).
           injection Hrest as <- _.
           destruct (escape_code_shape _ Hm0) as (t0 & [= -> <-] & Hno).
           apply Hno, elem_of_app. right. apply elem_of_cons. by left.
    + destruct (Hall k m post Hrest Hm) as (before & after & -> & <-).
      exists (Removed m0 :: before), after. split; [done|].
      by rewrite whole_cons, Hpre.
Qed.

Lemma sub_scanned (line : str) : ∃ segs, scanned line segs.
Proof.
  remember (length line) as k eqn:Hk. revert line Hk.
  induction (Nat.lt_wf_0 k) as [k _ IH]. intros line ->.
  destruct line as [|c s]; [exists []; apply scanned_nil|].
  destruct (sre_match regex (c :: s)) as [n|] eqn:Hm.
  - apply sre_match_regex in Hm as (m0 & rest & Heq & Hm0 & ->).
    destruct (IH (length rest)) with (line := rest) as [segs Hsegs]; [|done|].
    + rewrite Heq, length_app. apply escape_code_nonempty in Hm0. lia.
    + exists (Removed m0 :: segs). rewrite Heq. by apply scanned_remove.
  - destruct (IH (length s)) with (line := s) as [segs Hsegs];
      [simpl; lia|done|].
    exists (Kept c :: segs). by apply scanned_keep.
Qed.

Lemma whole_app (a b : list segment) : whole (a ++ b) = whole a ++ whole b.
Proof. unfold whole. by rewrite fmap_app, concat_app. Qed.

Lemma kept_app (a b : list segment) : kept (a ++ b) = kept a ++ kept b.
Proof. unfold kept. by rewrite fmap_app, concat_app. Qed.

Lemma kept_sublist (segs : list segment) : kept segs `sublist_of` whole segs.
Proof.
  induction segs as [|[c|m] segs IH]; rewrite ?kept_cons, ?whole_cons; simpl.
  - constructor.
  - by constructor.
  - by apply sublist_inserts_l.
Qed.

Lemma sub_sublist (line : str) : sub regex [] line `sublist_of` line.
Proof.
  destruct (sub_scanned line) as (segs & <- & _ & <- & _). apply kept_sublist.
Qed.

(** Only codes are dropped: where there is none, nothing is. *)
Lemma sub_no_occurrence (line : str) :
  no_occurrence line → sub regex [] line = line.
Proof.
  intros Hno. destruct (sub_scanned line) as (segs & <- & Hok & <- & _).
  assert (∀ m, Removed m ∉ segs) as Hkept.
  { intros m (before & after & ->)%list_elem_of_split.
    apply Forall_app in Hok as [_ [Hm _]%Forall_cons].
    apply (Hno (whole before) m (whole after)); [|done].
    by rewrite whole_app, whole_cons. }
  clear Hok Hno.
  induction segs as [|[c|m] segs IH]; [done| |].
  - rewrite kept_cons, whole_cons, IH; [done|].
    intros m Hm. apply (Hkept m). by constructor.
  - exfalso. apply (Hkept m). by constructor.
Qed.

(** Every code in the line makes the result shorter. *)
Lemma sub_occurrence_shorter (line pre m post : str) :
  line = pre ++ m ++ post → escape_code m →
  length (sub regex [] line) < length line.
Proof.
  intros Heq Hm. destruct (sub_scanned line) as (segs & Hw & _ & <- & Hall).
  destruct (Hall pre m post Heq Hm) as (before & after & -> & _).
  rewrite <-Hw, kept_app, whole_app, kept_cons, whole_cons, !length_app. simpl.
  pose proof (sublist_length _ _ (kept_sublist before)).
  pose proof (sublist_length _ _ (kept_sublist after)).
  apply escape_code_nonempty in Hm. lia.
Qed.

(** * Lines and the loop *)

Lemma readlines_line (body rest : str) :
  LF ∉ body → readlines (body ++ LF :: rest) = (body ++ [LF]) :: readlines rest.
Proof.
  induction body as [|c body IH]; intros Hno; simpl.
  - done.
  - apply not_elem_of_cons in Hno as [Hc Hno].
    destruct (N.eqb_spec c LF) as [->|_]; [done|].
    by rewrite IH.
Qed.

Lemma readlines_is_line (text : str) : Forall is_line (readlines text).
Proof.
  induction text as [|c text IH]; cbn [readlines]; [constructor|].
  destruct (N.eqb_spec c LF) as [->|Hc].
  - constructor; [|done]. exists []. split; [apply not_elem_of_nil|by left].
  - destruct (readlines text) as [|line lines]; constructor; try constructor.
    + exists [c]. split; [|by right].
      intros H%list_elem_of_singleton. by apply Hc.
    + apply Forall_cons in IH as [(body & Hno & Hline) _].
      exists (c :: body). split.
      * by apply not_elem_of_cons.
      * destruct Hline as [->|[-> _]]; [by left|by right].
    + by apply Forall_cons in IH as [_ ?].
Qed.

Lemma readlines_concat (text : str) : concat (readlines text) = text.
Proof.
  induction text as [|c text IH]; simpl; [done|].
  destruct (c =? LF)%N; simpl; [by rewrite IH|].
  destruct (readlines text); simpl in *; by rewrite <-IH.
Qed.

Lemma readlines_printed (outs : list str) :
  Forall (λ out, LF ∉ out) outs →
  readlines (concat ((λ out, out ++ [LF]) <$> outs)) = (λ out, out ++ [LF]) <$> outs.
Proof.
  induction 1 as [|out outs Hout _ IH]; [done|].
  rewrite fmap_cons. simpl. rewrite <-app_assoc. simpl.
  by rewrite readlines_line, IH.
Qed.

Lemma main_loop_written (lines : list str) (out : str) :
  main_loop lines out = out ++ concat ((λ line, delog_line line ++ [LF]) <$> lines).
Proof.
  revert out. induction lines as [|line lines IH]; intros out; simpl.
  - by rewrite app_nil_r.
  - rewrite IH. unfold print. by rewrite <-!app_assoc.
Qed.

Lemma isspace_LF : isspace LF = true.
Proof. reflexivity. Qed.

(** A line leaves its newline, if it had one, in the trimming. *)
Lemma delog_line_no_LF (line : str) : is_line line → LF ∉ delog_line line.
Proof.
  intros (body & Hno & Hline) Hin. apply Hno. unfold delog_line in Hin.
  pose proof (sub_sublist line) as Hsub.
  destruct Hline as [->|[-> _]].
  - apply sublist_app_r in Hsub as (k1 & k2 & Hk & Hk1 & Hk2).
    rewrite Hk in Hin.
    assert (strip (k1 ++ k2) `sublist_of` k1) as Hs.
    { apply sublist_cons_r in Hk2 as [->%sublist_nil_r|(k & -> & ->%sublist_nil_r)].
      - rewrite app_nil_r. apply strip_sublist.
      - rewrite strip_snoc_space by apply isspace_LF. apply strip_sublist. }
    eapply sublist_subseteq; [|exact Hin]. by etrans.
  - eapply sublist_subseteq; [|exact Hin]. etrans; [apply strip_sublist|done].
Qed.

Lemma main_lines (stdin : str) :
  readlines (stdout (main stdin)) =
  (λ line, delog_line line ++ [LF]) <$> readlines stdin.
Proof.
  unfold main. simpl. rewrite main_loop_written. simpl.
  rewrite (list_fmap_compose delog_line (λ out, out ++ [LF])).
  rewrite readlines_printed; [done|].
  apply Forall_fmap. eapply Forall_impl; [apply readlines_is_line|].
  intros line. apply delog_line_no_LF.
Qed.

(** * The specification's claims *)

(** ** The script against the specification's vocabulary *)

Lemma strip_trims (s : str) :
  trims_exactly (λ c, isspace c = true) s (strip s).
Proof.
  destruct (strip_split s) as (pre & post & Hs & Hpre & Hpost).
  exists pre, post. split_and!; [done|done|done| |].
  - intros c Hc. by rewrite (strip_head s c Hc).
  - intros c Hc. by rewrite (strip_last s c Hc).
Qed.

Lemma delog_line_cleaned (line : str) : cleaned line (delog_line line).
Proof.
  destruct (sub_scanned line) as (segs & Hw & Hok & Hk & Hall).
  exists segs. split_and!; [done|done|done|].
  rewrite Hk. apply strip_trims.
Qed.

(** Only the last line of a text can lack its newline. *)
Lemma readlines_ended (text : str) (i : nat) (line : str) :
  readlines text !! i = Some line → S i < length (readlines text) →
  last line = Some LF.
Proof.
  revert i line.
  induction text as [|c text IH]; intros i line; cbn [readlines]; [done|].
  destruct (N.eqb_spec c LF) as [->|Hc].
  - destruct i as [|i]; cbn [lookup list_lookup length].
    + by intros [= <-].
    + intros Hi Hlen. apply (IH i); [done|lia].
  - destruct (readlines text) as [|l ls] eqn:Hr.
    + destruct i; cbn [lookup list_lookup length]; [lia|done].
    + destruct i as [|i]; cbn [lookup list_lookup length].
      * intros [= <-] Hlen.
        assert (last l = Some LF) as Hl
          by (apply (IH 0); [done|cbn [length]; lia]).
        destruct l; [done|]. by rewrite last_cons_cons.
      * intros Hi Hlen. apply (IH (S i)); [done|cbn [length]; lia].
Qed.

Lemma readlines_lines_of (text : str) : lines_of text (readlines text).
Proof.
  split_and!;
    [apply readlines_concat|apply readlines_is_line|apply readlines_ended].
Qed.

(** What a run of [print] calls leaves on the stream, read as lines. *)
Lemma printed_lines_of (outs : list str) :
  Forall (λ out, LF ∉ out) outs →
  lines_of (concat ((λ out, out ++ [LF]) <$> outs))
           ((λ out, out ++ [LF]) <$> outs).
Proof.
  intros Houts. split_and!; [done| |].
  - apply Forall_fmap. eapply Forall_impl; [exact Houts|].
    intros out Hout. exists out. split; [done|by left].
  - intros i line Hi _.
    apply list_lookup_fmap_Some in Hi as (out & -> & _). apply last_snoc.
Qed.

(** C1. Every occurrence of the pattern ESC [ digits ; digits H in a line is
    removed before trimming, and nothing else is touched: the line is a
    sequence of copied characters and dropped codes, [sub] returns the
    copied characters in their order, [delog_line] trims exactly that, and
    every code found anywhere in the line is one of the dropped pieces, at
    its own position. *)
Theorem sub_removes_every_code (line : str) :
  ∃ segs : list segment,
    whole segs = line ∧ Forall seg_ok segs ∧
    kept segs = sub regex [] line ∧ delog_line line = strip (kept segs) ∧
    ∀ pre m post, line = pre ++ m ++ post → escape_code m →
      ∃ before after, segs = before ++ Removed m :: after ∧ whole before = pre.
Proof.
  destruct (sub_scanned line) as (segs & Hw & Hok & Hk & Hall).
  exists segs. split_and!; try done. unfold delog_line. by rewrite Hk.
Qed.




(** C3. One output line is written per input line, in the same order; output
    line i is the cleaned input line i followed by one newline, and that
    newline is the only one in it. With [lines] the lines of the input and
    [outs] their cleaned forms, one for each line in the same order, the
    text written is every [out] followed by a newline, one after the other,
    and the lines of that text are these and no others. *)
Theorem main_one_line_per_line (stdin : str) :
  ∃ lines outs : list str,
    lines_of stdin lines ∧ Forall2 cleaned lines outs ∧
    length outs = length lines ∧
    Forall (λ out, LF ∉ out) outs ∧
    stdout (main stdin) = concat ((λ out, out ++ [LF]) <$> outs) ∧
    lines_of (stdout (main stdin)) ((λ out, out ++ [LF]) <$> outs).
Proof.
  exists (readlines stdin), (delog_line <$> readlines stdin).
  assert (Forall (λ out, LF ∉ out) (delog_line <$> readlines stdin)) as Hno.
  { apply Forall_fmap. eapply Forall_impl; [apply readlines_is_line|].
    apply delog_line_no_LF. }
  assert (stdout (main stdin) =
          concat ((λ out, out ++ [LF]) <$> (delog_line <$> readlines stdin)))
    as Hout.
  { unfold main. simpl. rewrite main_loop_written. simpl.
    by rewrite <-list_fmap_compose. }
  split_and!; [apply readlines_lines_of| |by rewrite length_fmap|done|done|].
  - apply Forall2_fmap_r, Forall_Forall2_diag, Forall_forall.
    intros line _. apply delog_line_cleaned.
  - rewrite Hout. by apply printed_lines_of.
Qed.

(** C4, as the specification states it, fails: the line ESC [ ESC [ 1 ; 1 H ; H
    is printed as ESC [ ; H, which is itself an occurrence of the pattern,
    and filtering that output again gives the empty string. *)
Lemma delog_line_twice_differs :
  delog_line nested_line = [ESC; LBRACKET; SEMICOLON; LETTER_H] ∧
  escape_code (delog_line nested_line) ∧
  delog_line (delog_line nested_line) = [] ∧
  delog_line (delog_line nested_line) ≠ delog_line nested_line.
Proof.
  assert (delog_line nested_line = [ESC; LBRACKET; SEMICOLON; LETTER_H]) as E
    by (by vm_compute).
  rewrite E. split_and!; [done| |by vm_compute|by vm_compute].
  by exists [], [].
Qed.

(** C4, amended. Filtering an output line again gives the same string
    exactly when that output line holds no occurrence of the pattern;
    trimming it again never changes it. *)
Theorem delog_line_idempotent_iff (line : str) :
  (delog_line (delog_line line) = delog_line line ↔
   no_occurrence (delog_line line)) ∧
  strip (delog_line line) = delog_line line.
Proof.
  split; [split|apply strip_strip].
  - intros Heq pre m post Hout Hm.
    pose proof (sub_occurrence_shorter _ _ _ _ Hout Hm) as Hlt.
    pose proof (sublist_length _ _ (strip_sublist (sub regex [] (delog_line line)))) as Hle.
    fold (delog_line (delog_line line)) in Hle. rewrite Heq in Hle. lia.
  - intros Hno. unfold delog_line at 1. rewrite sub_no_occurrence by done.
    apply strip_strip.
Qed.

(** C5, as the specification states it, fails: a form feed is not one of
    space, tab, newline and carriage return, yet [strip] removes it from the
    start of a line. *)
Lemma strip_removes_form_feed :
  strip formfeed_line = [97%N] ∧ ¬ listed_whitespace 12%N ∧
  ¬ trims_exactly listed_whitespace formfeed_line (strip formfeed_line).
Proof.
  assert (¬ listed_whitespace 12%N) as Hff.
  { unfold listed_whitespace. intros H.
    repeat (apply elem_of_cons in H as [H|H]; [discriminate H|]).
    by apply elem_of_nil in H. }
  split_and!; [done|done|].
  intros (pre & post & Heq & Hpre & _).
  change (strip formfeed_line) with [97%N] in Heq. unfold formfeed_line in Heq.
  destruct pre as [|x pre]; [discriminate Heq|].
  injection Heq as <- _. by apply Forall_cons in Hpre as [? _].
Qed.

(** C5, amended. Trimming removes exactly the leading and trailing
    characters for which [isspace] holds; the four characters the
    specification lists are among them. *)
Theorem strip_trims_isspace (s : str) :
  trims_exactly (λ c, isspace c = true) s (strip s) ∧
  ∀ c, listed_whitespace c → isspace c = true.
Proof.
  split.
  - destruct (strip_split s) as (pre & post & Hs & Hpre & Hpost).
    exists pre, post. split_and!; [done|done|done| |].
    + intros c Hc. by rewrite (strip_head s c Hc).
    + intros c Hc. by rewrite (strip_last s c Hc).
  - unfold listed_whitespace. intros c H.
    repeat (apply elem_of_cons in H as [->|H]; [done|]).
    by apply elem_of_nil in H.
Qed.

(** C6. The output line written for input line i is determined by the
    content of input line i alone: two inputs that agree on line i give the
    same output line i, whatever their other lines are. *)
Theorem output_line_from_its_line (stdin1 stdin2 : str) (i : nat) (line : str) :
  readlines stdin1 !! i = Some line → readlines stdin2 !! i = Some line →
  readlines (stdout (main stdin1)) !! i = Some (delog_line line ++ [LF]) ∧
  readlines (stdout (main stdin2)) !! i = readlines (stdout (main stdin1)) !! i.
Proof.
  intros H1 H2. rewrite !main_lines, !list_lookup_fmap, H1, H2. done.
Qed.

Lemma output_line_from_its_line_witness :
  readlines (stdout (main (py "a" ++ [LF] ++ py " b " ++ [LF]))) !! 1
    = Some (delog_line (py " b " ++ [LF]) ++ [LF]) ∧
  readlines (stdout (main ([ESC] ++ py "[1;1H" ++ [LF] ++ py " b " ++ [LF] ++ py "c"))) !! 1
    = readlines (stdout (main (py "a" ++ [LF] ++ py " b " ++ [LF]))) !! 1.
Proof.
  apply (output_line_from_its_line
           (py "a" ++ [LF] ++ py " b " ++ [LF])
           ([ESC] ++ py "[1;1H" ++ [LF] ++ py " b " ++ [LF] ++ py "c")
           1 (py " b " ++ [LF])); reflexivity.
Defined.

(** C7. For the line ESC[12;5HHello WorldESC[0;0H followed by two spaces,
    pattern removal yields "Hello World" followed by two spaces and the
    line written is "Hello World". *)
Theorem hello_scenario :
  sub regex [] hello_line = py "Hello World  " ∧
  delog_line hello_line = py "Hello World" ∧
  stdout (main hello_line) = py "Hello World" ++ [LF].
Proof. by vm_compute. Qed.

(** C8. On empty input nothing is written and the exit status is 0. *)
Theorem main_empty_input :
  main [] = {| stdout := []; exit_status := 0 |} ∧
  readlines (stdout (main [])) = [].
Proof. done. Qed.

(** C9. Every output line, without its terminating newline, has no leading
    and no trailing whitespace, and trimming it again changes nothing. *)
Theorem output_lines_are_trimmed (stdin : str) :
  Forall
    (λ out, ∃ body,
       out = body ++ [LF] ∧ strip body = body ∧
       (∀ c, head body = Some c → isspace c = false) ∧
       (∀ c, last body = Some c → isspace c = false))
    (readlines (stdout (main stdin))).
Proof.
  rewrite main_lines. apply Forall_fmap, Forall_true. intros line. simpl.
  exists (delog_line line). split_and!.
  - done.
  - apply strip_strip.
  - apply strip_head.
  - apply strip_last.
Qed.

(** C10. The text printed for a line is the line with characters deleted
    and none inserted or replaced, so it is no longer than the line. *)
Theorem delog_line_only_deletes (line : str) :
  delog_line line `sublist_of` line ∧ length (delog_line line) ≤ length line.
Proof.
  assert (delog_line line `sublist_of` line) as H
    by (etrans; [apply strip_sublist|apply sub_sublist]).
  split; [done|by apply sublist_length].
Qed.


(** * Further properties of the script *)

(** ** Where substitution is local *)

Lemma sre_match_regex_head (x : char) (s : str) :
  x ≠ ESC → sre_match regex (x :: s) = None.
Proof.
  intros Hx. unfold regex. cbn [sre_match].
  by destruct (N.eqb_spec x ESC).
Qed.

Lemma sre_match_regex_extends (a b : str) (n : nat) :
  sre_match regex a = Some n → sre_match regex (a ++ b) = Some n.
Proof.
  intros (m & rest & -> & Hm & ->)%sre_match_regex.
  apply sre_match_regex. exists m, (rest ++ b). by rewrite <-app_assoc.
Qed.

Lemma sre_match_regex_positive (s : str) (n : nat) :
  sre_match regex s = Some n → 0 < n.
Proof.
  intros (m & rest & -> & Hm & ->)%sre_match_regex.
  by apply escape_code_nonempty.
Qed.

Lemma sub_app_no_ESC (a b : str) :
  ESC ∉ a → sub regex [] (a ++ b) = a ++ sub regex [] b.
Proof.
  induction a as [|x a IH]; [done|].
  intros [Hx Ha]%not_elem_of_cons. simpl app.
  rewrite sub_cons, sre_match_regex_head by done. by rewrite IH.
Qed.

Lemma sub_code_head (m b : str) :
  escape_code m → sub regex [] (m ++ b) = sub regex [] b.
Proof.
  intros Hm. destruct (escape_code_shape m Hm) as (t & -> & _).
  assert (sre_match regex ((ESC :: t) ++ b) = Some (S (length t))) as E
    by (apply sre_match_regex; eauto).
  simpl app in *. by rewrite sub_cons, E, drop_app_length.
Qed.

Lemma decimal_digit_continues (c : char) :
  decimal_digit c → continues_code c = true.
Proof.
  intros Hc%decimal_digit_range. unfold continues_code. rewrite Hc.
  by destruct (c =? LBRACKET)%N.
Qed.

(** After its escape character a code holds only continuing characters. *)
Lemma escape_code_tail (m : str) :
  escape_code m → ∃ t, m = ESC :: t ∧ Forall (λ c, continues_code c = true) t.
Proof.
  intros (row & col & Hrow & Hcol & ->). eexists. split; [reflexivity|].
  constructor; [done|]. apply Forall_app. split.
  - eapply Forall_impl; [exact Hrow|]. apply decimal_digit_continues.
  - constructor; [done|]. apply Forall_app. split.
    + eapply Forall_impl; [exact Hcol|]. apply decimal_digit_continues.
    + by constructor.
Qed.

(** A match that starts before a safe cut ends before it. *)
Lemma sre_match_regex_before_cut (x : char) (a b : str) (n : nat) :
  safe_cut b → sre_match regex (x :: a ++ b) = Some n →
  sre_match regex (x :: a) = Some n ∧ n ≤ S (length a).
Proof.
  intros Hb (m & rest & Heq & Hm & ->)%sre_match_regex.
  change (x :: a ++ b) with ((x :: a) ++ b) in Heq.
  apply app_eq_inv in Heq as [(k & Hk & _)|(k & Hk & Hbk)].
  - split.
    + apply sre_match_regex. by exists m, k.
    + apply (f_equal length) in Hk. list_len.
  - destruct k as [|y k].
    + rewrite app_nil_r in Hk. subst m. split; [|done].
      apply sre_match_regex. exists (x :: a), []. by rewrite app_nil_r.
    + exfalso. destruct (escape_code_tail m Hm) as (t & -> & Ht).
      injection Hk as _ ->.
      apply Forall_app in Ht as [_ [Hy _]%Forall_cons].
      rewrite (Hb y) in Hy; [done|]. by rewrite Hbk.
Qed.

Lemma sub_app_safe (a b : str) :
  safe_cut b → sub regex [] (a ++ b) = sub regex [] a ++ sub regex [] b.
Proof.
  intros Hb. remember (length a) as k eqn:Hk. revert a Hk.
  induction (Nat.lt_wf_0 k) as [k _ IH]. intros a ->.
  destruct a as [|x a]; [done|]. simpl app. rewrite !sub_cons.
  destruct (sre_match regex (x :: a ++ b)) as [n|] eqn:Hm.
  - pose proof (sre_match_regex_positive _ _ Hm) as Hn.
    apply sre_match_regex_before_cut in Hm as [-> Hle]; [|done].
    destruct n as [|n]; [lia|]. simpl.
    rewrite drop_app_le by lia.
    apply (IH (length (drop n a))); [|done].
    rewrite length_drop. simpl. lia.
  - destruct (sre_match regex (x :: a)) as [n|] eqn:Ha.
    + apply (sre_match_regex_extends _ b) in Ha. simpl app in Ha. congruence.
    + simpl. f_equal. apply (IH (length a)); [simpl; lia|done].
Qed.

Lemma continues_code_ESC : continues_code ESC = false.
Proof. reflexivity. Qed.

Lemma isspace_not_continues (c : char) :
  isspace c = true → continues_code c = false.
Proof.
  intros Hc. destruct (continues_code c) eqn:Hcc; [|done].
  unfold continues_code, in_range, LBRACKET, DIGIT_0, DIGIT_9, SEMICOLON,
    LETTER_H in Hcc.
  rewrite !orb_true_iff, andb_true_iff, !N.eqb_eq, !N.leb_le in Hcc.
  assert (isspace c = false) as Hf; [|congruence].
  unfold isspace.
  rewrite !orb_false_iff, !andb_false_iff, !N.eqb_neq, !N.leb_gt. lia.
Qed.

Lemma isspace_not_ESC (ws : str) :
  Forall (λ c, isspace c = true) ws → ESC ∉ ws.
Proof.
  rewrite Forall_forall. intros Hws Hin. by apply Hws in Hin.
Qed.

Lemma safe_cut_space (ws : str) :
  Forall (λ c, isspace c = true) ws → safe_cut ws.
Proof.
  intros Hws c Hc. destruct ws as [|x ws]; [done|].
  injection Hc as ->. apply Forall_cons in Hws as [Hx _].
  by apply isspace_not_continues.
Qed.

Lemma strip_app_space_l (ws s : str) :
  Forall (λ c, isspace c = true) ws → strip (ws ++ s) = strip s.
Proof.
  induction 1 as [|c ws Hc _ IH]; [done|].
  unfold strip in *. simpl. by rewrite Hc.
Qed.

Lemma strip_app_space_r (ws s : str) :
  Forall (λ c, isspace c = true) ws → strip (s ++ ws) = strip s.
Proof.
  intros Hws. revert s. induction Hws as [|c ws Hc _ IH]; intros s.
  - by rewrite app_nil_r.
  - by rewrite cons_middle, app_assoc, IH, strip_snoc_space.
Qed.

(** ** The stream as a whole *)

Lemma readlines_single (body : str) :
  LF ∉ body → body ≠ [] → readlines body = [body].
Proof.
  induction body as [|c body IH]; [done|].
  intros [Hc Hno]%not_elem_of_cons _. cbn [readlines].
  destruct (N.eqb_spec c LF) as [?|_]; [done|].
  destruct body as [|d body]; [done|]. by rewrite IH.
Qed.

Lemma text_cut (text : str) :
  LF ∉ text ∨ ∃ body rest, text = body ++ LF :: rest ∧ LF ∉ body.
Proof.
  induction text as [|c text IH]; [left; apply not_elem_of_nil|].
  destruct (decide (c = LF)) as [->|Hc].
  - right. exists [], text. split; [done|apply not_elem_of_nil].
  - destruct IH as [Hno|(body & rest & -> & Hno)].
    + left. by apply not_elem_of_cons.
    + right. exists (c :: body), rest. split; [done|by apply not_elem_of_cons].
Qed.

Lemma readlines_nonempty (text : str) : text ≠ [] → readlines text ≠ [].
Proof.
  intros Hne Hnil. apply Hne. by rewrite <-(readlines_concat text), Hnil.
Qed.

(** Ending one text at a line end, the lines of two texts in a row are the
    lines of the first and then those of the second. *)
Lemma readlines_app (a b : str) :
  ends_lines a → readlines (a ++ b) = readlines a ++ readlines b.
Proof.
  induction a as [|c a IH]; [done|].
  intros [?|Hlast]; [done|]. simpl app. cbn [readlines].
  destruct (N.eqb_spec c LF) as [->|Hc].
  - rewrite IH; [done|]. destruct a as [|d a]; [by left|by right].
  - destruct a as [|d a].
    + injection Hlast as ->. done.
    + rewrite IH by (by right).
      pose proof (readlines_nonempty (d :: a)) as Hne.
      destruct (readlines (d :: a)) as [|line lines]; [by destruct Hne|done].
Qed.

Lemma delog_line_terminated (body : str) :
  delog_line (body ++ [LF]) `sublist_of` body.
Proof.
  unfold delog_line. pose proof (sub_sublist (body ++ [LF])) as Hsub.
  apply sublist_app_r in Hsub as (k1 & k2 & -> & Hk1 & Hk2).
  etrans; [|exact Hk1].
  apply sublist_cons_r in Hk2 as [->%sublist_nil_r|(k & -> & ->%sublist_nil_r)].
  - rewrite app_nil_r. apply strip_sublist.
  - rewrite strip_snoc_space by apply isspace_LF. apply strip_sublist.
Qed.

Lemma main_loop_from (lines : list str) (out : str) :
  main_loop lines out = out ++ main_loop lines [].
Proof. by rewrite !main_loop_written. Qed.

Lemma written_length (text : str) :
  length (main_loop (readlines text) []) ≤ length text + 1 ∧
  (ends_lines text → length (main_loop (readlines text) []) ≤ length text).
Proof.
  remember (length text) as k eqn:Hk. revert text Hk.
  induction (Nat.lt_wf_0 k) as [k _ IH]. intros text ->.
  destruct (text_cut text) as [Hno|(body & rest & -> & Hno)].
  - destruct text as [|c text]; [simpl; split; [lia|intros _; lia]|].
    rewrite readlines_single; [|done|discriminate].
    rewrite main_loop_written. simpl concat.
    rewrite app_nil_r.
    pose proof (sublist_length _ _ (strip_sublist (sub regex [] (c :: text)))) as H1.
    pose proof (sublist_length _ _ (sub_sublist (c :: text))) as H2.
    fold (delog_line (c :: text)) in H1. split; [list_len|].
    intros [?|Hlast]; [done|]. by apply last_Some_elem_of in Hlast.
  - rewrite readlines_line by done. cbn [main_loop].
    rewrite main_loop_from. unfold print.
    pose proof (sublist_length _ _ (delog_line_terminated body)) as Hb.
    destruct (IH (length rest)) with (text := rest) as [Hr1 Hr2]; [list_len|done|].
    split; [list_len|].
    intros [?|Hlast]; [by destruct body|].
    assert (ends_lines rest) as Hends.
    { destruct rest as [|d rest]; [by left|right].
      by rewrite last_app_cons, last_cons_cons in Hlast. }
    specialize (Hr2 Hends). list_len.
Qed.

Lemma delog_line_snoc_LF (line : str) :
  delog_line (line ++ [LF]) = delog_line line.
Proof.
  unfold delog_line. rewrite sub_app_safe.
  - rewrite sub_cons, sre_match_regex_head, sub_regex_nil by done.
    by rewrite strip_snoc_space by apply isspace_LF.
  - by intros c [= <-].
Qed.

(** A newline put after a text that lacks one at its end goes to the last
    line and makes no new one. *)
Lemma readlines_snoc_LF (text : str) :
  text ≠ [] → last text ≠ Some LF →
  ∃ lines line, readlines text = lines ++ [line] ∧
                readlines (text ++ [LF]) = lines ++ [line ++ [LF]].
Proof.
  induction text as [|c text IH]; [done|]. intros _ Hlast.
  destruct (decide (text = [])) as [->|Hne].
  - exists [], [c]. cbn [readlines app].
    by destruct (N.eqb_spec c LF) as [->|_].
  - destruct IH as (lines & line & Hl & Hl'); [done| |].
    { destruct text; [done|]. by rewrite last_cons_cons in Hlast. }
    simpl app. cbn [readlines]. rewrite Hl, Hl'.
    destruct (c =? LF)%N.
    + by exists ([c] :: lines), line.
    + destruct lines as [|l0 lines].
      * by exists [], (c :: line).
      * by exists ((c :: l0) :: lines), line.
Qed.

(** Lines that fit a text are the lines the stream yields for it. *)
Lemma lines_of_readlines (lines : list str) :
  Forall is_line lines →
  (∀ i line, lines !! i = Some line → S i < length lines →
             last line = Some LF) →
  readlines (concat lines) = lines.
Proof.
  induction lines as [|l ls IH]; [done|].
  intros [(body & Hno & Hl) Hls]%Forall_cons Hend. simpl concat.
  assert (readlines (concat ls) = ls) as Hrec.
  { apply IH; [done|]. intros i line Hi Hlen.
    apply (Hend (S i)); [done|cbn [length]; lia]. }
  destruct Hl as [->|[-> Hne]].
  - rewrite <-app_assoc. simpl app. rewrite readlines_line by done.
    by rewrite Hrec.
  - destruct ls as [|l' ls'].
    + simpl. rewrite app_nil_r. by apply readlines_single.
    + exfalso. apply Hno, last_Some_elem_of.
      apply (Hend 0); [done|cbn [length]; lia].
Qed.

(** ** Properties *)

(** X1. Text before the first escape character of a line is copied as it
    is; substitution goes on in what follows. *)
Theorem sub_copies_text_before_ESC (a b : str) :
  ESC ∉ a → sub regex [] (a ++ b) = a ++ sub regex [] b.
Proof. apply sub_app_no_ESC. Qed.

Lemma sub_copies_text_before_ESC_witness :
  sub regex [] (py "log: " ++ hello_line) = py "log: " ++ sub regex [] hello_line.
Proof.
  apply sub_copies_text_before_ESC. vm_compute. intros H.
  repeat (apply elem_of_cons in H as [H|H]; [discriminate H|]).
  by apply elem_of_nil in H.
Defined.

(** X2. A line can be processed in two pieces cut at any position where the
    second piece is empty or starts with a character other than ['['], a
    digit, [';'] and ['H']: no match crosses such a cut. *)
Theorem sub_splits_at_safe_cut (a b : str) :
  safe_cut b → sub regex [] (a ++ b) = sub regex [] a ++ sub regex [] b.
Proof. apply sub_app_safe. Qed.

Lemma sub_splits_at_safe_cut_witness :
  sub regex [] (([ESC] ++ py "[1;") ++ py " 2H") =
  sub regex [] ([ESC] ++ py "[1;") ++ sub regex [] (py " 2H").
Proof.
  apply sub_splits_at_safe_cut. intros c [= <-]. reflexivity.
Defined.

(** X3. A code anywhere in a line is dropped, and the text before it and the
    text after it are processed apart from each other: what the two sides
    leave is never looked at again. *)
Theorem sub_drops_code_between (a m b : str) :
  escape_code m →
  sub regex [] (a ++ m ++ b) = sub regex [] a ++ sub regex [] b.
Proof.
  intros Hm. rewrite sub_app_safe.
  - by rewrite sub_code_head.
  - destruct (escape_code_shape m Hm) as (t & -> & _).
    intros c [= <-]. apply continues_code_ESC.
Qed.

Lemma sub_drops_code_between_witness :
  sub regex [] ([ESC; LBRACKET] ++ ([ESC] ++ py "[1;1H") ++ py ";H") =
  sub regex [] [ESC; LBRACKET] ++ sub regex [] (py ";H").
Proof.
  apply sub_drops_code_between. exists (py "1"), (py "1").
  split_and!; [| |done]; repeat constructor.
Defined.

(** X4. Whitespace around a line, its line ending included, has no effect on
    what is printed for it. *)
Theorem delog_line_ignores_outer_whitespace (ws1 line ws2 : str) :
  Forall (λ c, isspace c = true) ws1 → Forall (λ c, isspace c = true) ws2 →
  delog_line (ws1 ++ line ++ ws2) = delog_line line.
Proof.
  intros H1 H2. unfold delog_line.
  rewrite sub_app_no_ESC by by apply isspace_not_ESC.
  rewrite sub_app_safe by by apply safe_cut_space.
  rewrite <-(app_nil_r ws2) at 1.
  rewrite (sub_app_no_ESC ws2 []) by by apply isspace_not_ESC.
  rewrite sub_regex_nil, app_nil_r.
  by rewrite strip_app_space_l, strip_app_space_r.
Qed.

Lemma delog_line_ignores_outer_whitespace_witness :
  delog_line (py "  " ++ hello_line ++ [13; 10]%N) = delog_line hello_line.
Proof.
  apply delog_line_ignores_outer_whitespace; repeat constructor.
Defined.

(** X5. The text printed for a line is empty exactly when removing the
    codes leaves nothing but whitespace. *)
Theorem delog_line_empty_iff (line : str) :
  delog_line line = [] ↔ Forall (λ c, isspace c = true) (sub regex [] line).
Proof.
  unfold delog_line. split.
  - intros Hnil. destruct (strip_split (sub regex [] line)) as (pre & post & Hs & Hpre & Hpost).
    rewrite Hs, Hnil. by apply Forall_app.
  - intros Hall. rewrite <-(app_nil_r (sub regex [] line)).
    by rewrite strip_app_space_l.
Qed.

(** X6. Whenever the input is not empty, the output ends with a newline,
    also when the last input line has none. *)
Theorem stdout_ends_with_newline (stdin : str) :
  stdin ≠ [] → last (stdout (main stdin)) = Some LF.
Proof.
  intros Hne%readlines_nonempty. unfold main. simpl.
  rewrite main_loop_written. simpl.
  destruct (readlines stdin) as [|line lines _] using rev_ind; [done|].
  rewrite fmap_app, concat_app. simpl. rewrite app_nil_r, app_assoc.
  apply last_snoc.
Qed.

Lemma stdout_ends_with_newline_witness :
  last (stdout (main (py "no newline at the end"))) = Some LF.
Proof. by apply stdout_ends_with_newline. Defined.

(** X7. The output is at most one character longer than the input, and no
    longer at all when the input is empty or ends with a newline. *)
Theorem stdout_length_bound (stdin : str) :
  length (stdout (main stdin)) ≤ length stdin + 1 ∧
  (ends_lines stdin → length (stdout (main stdin)) ≤ length stdin).
Proof. apply written_length. Qed.

Lemma stdout_length_bound_witness :
  length (stdout (main (py "  a  " ++ [LF]))) ≤ length (py "  a  " ++ [LF]).
Proof. apply stdout_length_bound. by right. Defined.

(** X8. Running the script on two texts in a row, the first empty or ending
    with a newline, writes what it writes for the first and then what it
    writes for the second. *)
Theorem main_app (stdin1 stdin2 : str) :
  ends_lines stdin1 →
  stdout (main (stdin1 ++ stdin2)) = stdout (main stdin1) ++ stdout (main stdin2).
Proof.
  intros Hends. unfold main. simpl.
  rewrite readlines_app by done. rewrite !main_loop_written. simpl.
  by rewrite fmap_app, concat_app.
Qed.

Lemma main_app_witness :
  stdout (main ((py " a" ++ [LF]) ++ hello_line)) =
  stdout (main (py " a" ++ [LF])) ++ stdout (main hello_line).
Proof. apply main_app. by right. Defined.

(** X9. The compiled pattern matches at the start of a string exactly when
    the string starts with a cursor-position code, and the match is that
    code whole: the greedy repeats never stop short or run past it. *)
Theorem regex_matches_exactly_codes (s : str) :
  match sre_match regex s with
  | Some n => n ≤ length s ∧ escape_code (take n s)
  | None => ∀ m rest, s = m ++ rest → ¬ escape_code m
  end.
Proof.
  destruct (sre_match regex s) as [n|] eqn:Hs.
  - apply sre_match_regex in Hs as (m & rest & -> & Hm & ->).
    split; [list_len|]. by rewrite take_app_length.
  - intros m rest -> Hm.
    assert (sre_match regex (m ++ rest) = Some (length m)) as E
      by (apply sre_match_regex; eauto).
    congruence.
Qed.

(** X10. Iterating over the stream loses nothing and cuts only after
    newlines: the lines in a row are the text, no line is empty, a line has
    a newline at its end only, and every line but the last has one. No
    other list of strings cuts the text this way. *)
Theorem readlines_lossless (text : str) :
  lines_of text (readlines text) ∧
  ∀ lines, lines_of text lines → lines = readlines text.
Proof.
  split; [apply readlines_lines_of|].
  intros lines (<- & His & Hend). symmetry. by apply lines_of_readlines.
Qed.

Lemma readlines_lossless_witness :
  [py "a" ++ [LF]; py "b"] = readlines (py "a" ++ [LF] ++ py "b").
Proof.
  assert ((LF ∉ py "a") ∧ (LF ∉ py "b")) as [Ha Hb].
  { split; intros H; apply elem_of_cons in H as [H|H];
      solve [discriminate H | by apply elem_of_nil in H]. }
  apply readlines_lossless. split_and!.
  - reflexivity.
  - repeat apply Forall_cons_2; [| |constructor].
    + exists (py "a"). split; [done|by left].
    + exists (py "b"). split; [done|by right].
  - intros [|[|i]] line Hi Hlen; cbn [length] in Hlen; [|lia|lia].
    by injection Hi as <-.
Defined.

(** X11. Substitution returns a line as it is exactly when the line holds
    no cursor-position code: a code anywhere in the line makes the result
    differ from the line. *)
Theorem sub_unchanged_iff (line : str) :
  sub regex [] line = line ↔ no_occurrence line.
Proof.
  split; [|apply sub_no_occurrence].
  intros Heq pre m post Hline Hm.
  pose proof (sub_occurrence_shorter line pre m post Hline Hm) as Hlt.
  rewrite Heq in Hlt. lia.
Qed.

(** X12. A newline missing at the end of the input makes no difference:
    the output is the same as for the input with that newline added. *)
Theorem main_final_newline_optional (stdin : str) :
  stdin ≠ [] → last stdin ≠ Some LF →
  stdout (main (stdin ++ [LF])) = stdout (main stdin).
Proof.
  intros Hne Hlast.
  destruct (readlines_snoc_LF stdin Hne Hlast) as (lines & line & Hl & Hl').
  unfold main. simpl. rewrite Hl, Hl', !main_loop_written. simpl.
  by rewrite !fmap_app, !concat_app, !list_fmap_singleton, delog_line_snoc_LF.
Qed.

Lemma main_final_newline_optional_witness :
  stdout (main (hello_line ++ [LF])) = stdout (main hello_line).
Proof. by apply main_final_newline_optional. Defined.
